(** * JobMatchApp: the [/match] handler of [backend/main.py]

    A shallow embedding of [match_jobs] and the properties of its
    skill-matching and ranking algorithm.

    The handler receives a candidate dict and a list of job dicts, scores
    every job by the number of candidate skills found in the job's
    [required_skills], writes the score into the job dict (in place), keeps
    the jobs with a positive score and sorts them by descending score.

    Modelling choices.
    - Python values are the JSON data a request body can carry: [None],
      booleans, integers, strings, lists and objects.  JSON numbers are
      represented by integers; a character of a [str] is an [ascii].
    - The dicts the handler works on (the candidate and the jobs) are
      mutable objects: they live in a store indexed by references, and the
      job list is a list of references, so that two entries of the list (or
      the candidate and a job) may be the same object.  The values stored
      under the keys of a dict are immutable data: the handler never
      updates them, it only assigns one key of a job dict.
    - A Python exception is a result [Raise e]; the store survives it, with
      the assignments made before the exception. *)

From stdpp Require Import base option list gmap strings sorting.

Open Scope Z_scope.

(** ** Python values *)

#[warnings="-register-all"] Inductive value : Type :=
  | VNone
  | VBool (b : bool)
  | VInt (n : Z)
  | VStr (s : string)
  | VList (items : list value)
  | VDict (items : list (string * value)).

Inductive exn : Type :=
  | KeyError (key : string)
  | TypeError.

Inductive result (A : Type) : Type :=
  | Ok (a : A)
  | Raise (e : exn).
Arguments Ok {A} a.
Arguments Raise {A} e.

#[global] Instance exn_eq_dec : EqDecision exn.
Proof. solve_decision. Defined.

#[global] Instance result_eq_dec {A} `{EqDecision A} : EqDecision (result A).
Proof. solve_decision. Defined.

#[global] Instance result_ret : MRet result := fun _ a => Ok a.
#[global] Instance result_bind : MBind result := fun _ _ f m =>
  match m with
  | Ok a => f a
  | Raise e => Raise e
  end.

(** Lookup in the items of a nested object (first binding of the key). *)
Fixpoint assoc {A : Type} (k : string) (kvs : list (string * A)) : option A :=
  match kvs with
  | [] => None
  | (k', v) :: rest => if String.eqb k k' then Some v else assoc k rest
  end.

(** [True == 1] and [False == 0]: booleans compare as integers. *)
Definition as_number (v : value) : option Z :=
  match v with
  | VBool b => Some (Z.b2z b)
  | VInt n => Some n
  | _ => None
  end.

(** [a == b] on JSON data. *)
Fixpoint py_eq (a b : value) {struct a} : bool :=
  match a with
  | VNone => match b with VNone => true | _ => false end
  | VBool x =>
      match as_number b with Some n => Z.eqb (Z.b2z x) n | None => false end
  | VInt x =>
      match as_number b with Some n => Z.eqb x n | None => false end
  | VStr x => match b with VStr y => String.eqb x y | _ => false end
  | VList xs =>
      match b with
      | VList ys =>
          (fix seq_eq (xs ys : list value) : bool :=
             match xs, ys with
             | [], [] => true
             | x :: xs', y :: ys' => py_eq x y && seq_eq xs' ys'
             | _, _ => false
             end) xs ys
      | _ => false
      end
  | VDict kvs =>
      match b with
      | VDict kvs' =>
          Nat.eqb (length kvs) (length kvs') &&
          (fix items_eq (kvs : list (string * value)) : bool :=
             match kvs with
             | [] => true
             | (k, v) :: rest =>
                 match assoc k kvs' with
                 | Some v' => py_eq v v'
                 | None => false
                 end && items_eq rest
             end) kvs
      | _ => false
      end
  end.

(** [t] is a prefix of [s]. *)
Fixpoint str_prefix (t s : string) : bool :=
  match t, s with
  | EmptyString, _ => true
  | String a t', String b s' => Ascii.eqb a b && str_prefix t' s'
  | String _ _, EmptyString => false
  end.

(** [t in s] for two strings: [t] occurs in [s] as a substring. *)
Fixpoint str_contains (s t : string) : bool :=
  str_prefix t s ||
  match s with
  | EmptyString => false
  | String _ s' => str_contains s' t
  end.

Fixpoint chars (s : string) : list value :=
  match s with
  | EmptyString => []
  | String a s' => VStr (String a EmptyString) :: chars s'
  end.

(** The items produced by [for x in v]: the elements of a list, the
    characters of a string, the keys of an object; anything else is not
    iterable. *)
Definition py_iter (v : value) : result (list value) :=
  match v with
  | VList xs => Ok xs
  | VStr s => Ok (chars s)
  | VDict kvs => Ok (VStr <$> kvs.*1)
  | VNone | VBool _ | VInt _ => Raise TypeError
  end.

(** [x in c]: equality with some element of a list, substring of a string
    (the left operand must be a string), key of an object (the left operand
    must be hashable); the other values are not containers. *)
Definition py_in (x c : value) : result bool :=
  match c with
  | VList xs => Ok (existsb (py_eq x) xs)
  | VStr s =>
      match x with
      | VStr t => Ok (str_contains s t)
      | _ => Raise TypeError
      end
  | VDict kvs =>
      match x with
      | VStr k => Ok (bool_decide (k ∈ kvs.*1))
      | VList _ | VDict _ => Raise TypeError
      | VNone | VBool _ | VInt _ => Ok false
      end
  | VNone | VBool _ | VInt _ => Raise TypeError
  end.

(** ** Dicts and the store *)

Abbreviation dict := (gmap string value).
Definition loc := nat.
Abbreviation store := (gmap loc dict).

(** [d[k]] *)
Definition getitem (d : dict) (k : string) : result value :=
  match d !! k with
  | Some v => Ok v
  | None => Raise (KeyError k)
  end.

(** The object a reference points to.  A reference the store does not list
    points to an empty dict. *)
Definition deref (σ : store) (l : loc) : dict := default ∅ (σ !! l).

(** ** The score of a job

    [sum(skill in job["required_skills"] for skill in candidate["skills"])].
    [candidate["skills"]] is evaluated once, when the generator is created;
    [job["required_skills"]] is evaluated again for every skill, so it is not
    evaluated at all when there is no skill. *)
Fixpoint sum_in (job : dict) (skills : list value) (acc : Z) : result Z :=
  match skills with
  | [] => Ok acc
  | skill :: rest =>
      required ← getitem job "required_skills";
      b ← py_in skill required;
      sum_in job rest (acc + Z.b2z b)
  end.

Definition score (candidate job : dict) : result Z :=
  skills ← getitem candidate "skills";
  items ← py_iter skills;
  sum_in job items 0.

(** ** Statements: a state and exception monad over the store *)

Definition M (A : Type) : Type := store → result A * store.

#[global] Instance M_ret : MRet M := fun _ a σ => (Ok a, σ).
#[global] Instance M_bind : MBind M := fun _ _ f m σ =>
  match m σ with
  | (Ok a, σ') => f a σ'
  | (Raise e, σ') => (Raise e, σ')
  end.

Definition load (l : loc) : M dict := fun σ => (Ok (deref σ l), σ).
Definition eval {A} (r : result A) : M A := fun σ => (r, σ).
(** [l[k] = v] *)
Definition setitem (l : loc) (k : string) (v : value) : M unit :=
  fun σ => (Ok tt, <[l := <[k := v]> (deref σ l)]> σ).

(** ** The sort

    [matched_jobs.sort(key=lambda x: x["match_score"], reverse=True)]: the
    keys are computed first, then the list is sorted by decreasing key, and
    entries with equal keys keep their order ([list.sort] is stable, also
    with [reverse=True]). *)

(** The key of an entry.  The entries the handler sorts are the jobs it has
    just kept, and their keys are the integers it has just stored (see
    [sort_by_score_ok]); a key of another type is a [TypeError] here. *)
Definition sort_key (d : dict) : result Z :=
  k ← getitem d "match_score";
  match k with
  | VInt n => Ok n
  | _ => Raise TypeError
  end.

Fixpoint decorate (xs : list loc) : M (list (Z * loc)) :=
  match xs with
  | [] => mret []
  | x :: rest =>
      d ← load x;
      k ← eval (sort_key d);
      krest ← decorate rest;
      mret ((k, x) :: krest)
  end.

(** Insertion in a list sorted by decreasing key, before the entries whose
    key is not larger. *)
Fixpoint insert_desc (x : Z * loc) (l : list (Z * loc)) : list (Z * loc) :=
  match l with
  | [] => [x]
  | y :: l' => if y.1 <=? x.1 then x :: y :: l' else y :: insert_desc x l'
  end.

Definition sort_desc (l : list (Z * loc)) : list (Z * loc) :=
  foldr insert_desc [] l.

Definition sort_by_score (xs : list loc) : M (list loc) :=
  keyed ← decorate xs;
  mret ((sort_desc keyed).*2).

(** ** The handler *)

Record response : Type := Response { matches : list loc }.

(** The body of [for job in jobs], with [matched_jobs] as accumulator. *)
Fixpoint for_jobs (candidate : loc) (jobs matched_jobs : list loc)
  : M (list loc) :=
  match jobs with
  | [] => mret matched_jobs
  | job :: rest =>
      c ← load candidate;
      j ← load job;
      s ← eval (score c j);
      if 0 <? s then
        _ ← setitem job "match_score" (VInt s);
        for_jobs candidate rest (matched_jobs ++ [job])
      else for_jobs candidate rest matched_jobs
  end.

Definition match_jobs (candidate : loc) (jobs : list loc) : M response :=
  matched_jobs ← for_jobs candidate jobs [];
  sorted ← sort_by_score matched_jobs;
  mret (Response sorted).

(** The body of the response: the dicts of the matched jobs, as they are in
    the store when the handler returns. *)
Definition render (σ : store) (r : response) : list dict :=
  deref σ <$> matches r.

(** * Vocabulary of the properties *)

(** The number of skills that are in [required]. *)
Definition hits (required : value) (skills : list value) : Z :=
  Z.of_nat (length (filter (λ skill, py_in skill required = Ok true) skills)).

(** The score of job [j] for candidate [c], as computed in store [σ]. *)
Definition score_at (σ : store) (c j : loc) : result Z :=
  score (deref σ c) (deref σ j).

Definition score_val (σ : store) (c j : loc) : Z :=
  match score_at σ c j with
  | Ok z => z
  | Raise _ => 0
  end.

(** The test [score > 0] of the loop. *)
Definition is_match (σ : store) (c j : loc) : Prop := 0 < score_val σ c j.

#[global] Instance is_match_dec σ c j : Decision (is_match σ c j).
Proof. unfold is_match. apply _. Defined.

(** [d] after [d["match_score"] = z]. *)
Definition annotated (d : dict) (z : Z) : dict := <["match_score" := VInt z]> d.

(** What a job object holds after the loop has kept it: what it held
    before, with the score under [match_score]. *)
Definition kept (σ σ' : store) (c l : loc) : Prop :=
  is_match σ c l ∧
  σ' !! l = Some (annotated (deref σ l) (score_val σ c l)).

(** [x] comes before [y] in a list sorted by decreasing key. *)
Definition key_ge (x y : Z * loc) : Prop := y.1 ≤ x.1.

(** An entry decorated with its key. *)
Definition keyed (f : loc → Z) (j : loc) : Z * loc := (f j, j).

(** The jobs [match_jobs] returns: those with a positive score, by
    decreasing score, in the order of the list for equal scores. *)
Definition ranking (σ : store) (c : loc) (js : list loc) : list loc :=
  (sort_desc (keyed (score_val σ c) <$> filter (is_match σ c) js)).*2.

(** A job has [z] under [match_score]. *)
Definition has_score (σ : store) (z : Z) (j : loc) : Prop :=
  deref σ j !! "match_score" = Some (VInt z).

#[global] Instance has_score_dec σ z j : Decision (has_score σ z j).
Proof.
  unfold has_score.
  destruct (deref σ j !! "match_score") as [v|]; [|right; congruence].
  destruct v as [| |n| | |]; try (right; congruence).
  destruct (decide (n = z)); [left|right]; congruence.
Defined.

(** The call raises an exception. *)
Definition raises (c : loc) (js : list loc) (σ : store) : Prop :=
  ∃ e σ', match_jobs c js σ = (Raise e, σ').

(** [candidate["skills"]] is absent or cannot be iterated. *)
Definition skills_unusable (candidate : dict) : Prop :=
  match candidate !! "skills" with
  | None => True
  | Some skills => py_iter skills = Raise TypeError
  end.

Definition lacks_required_skills (job : dict) : Prop :=
  job !! "required_skills" = None.

(** The condition of the specification for a [MalformedInput] failure:
    [candidate.skills] is absent or not iterable, or some job of the list
    has no [required_skills]. *)
Definition malformed_input (c : loc) (js : list loc) (σ : store) : Prop :=
  skills_unusable (deref σ c) ∨
  ∃ j, j ∈ js ∧ lacks_required_skills (deref σ j).

(** ** Requests used as examples *)

Definition ref_candidate : loc := 0%nat.
Definition ref_job1 : loc := 1%nat.
Definition ref_job2 : loc := 2%nat.
Definition ref_job3 : loc := 3%nat.

(** The request of scenario 1. *)
Definition scenario_candidate : dict :=
  {[ "skills" := VList [VStr "python"; VStr "sql"] ]}.
Definition scenario_job1 : dict :=
  {[ "required_skills" := VList [VStr "python"; VStr "go"] ]}.
Definition scenario_job2 : dict :=
  {[ "required_skills" := VList [VStr "sql"; VStr "python"] ]}.
Definition scenario_store : store :=
  {[ ref_candidate := scenario_candidate; ref_job1 := scenario_job1;
     ref_job2 := scenario_job2 ]}.
Definition scenario_final : store :=
  <[ref_job2 := annotated scenario_job2 2]>
    (<[ref_job1 := annotated scenario_job1 1]> scenario_store).
Definition scenario_response : response := Response [ref_job2; ref_job1].

(** Two jobs of equal score: job 1 (score 1), job 2 (score 2) and job 3
    (score 1), for the candidate of scenario 1. *)
Definition ties_job3 : dict := {[ "required_skills" := VList [VStr "sql"] ]}.
Definition ties_store : store := <[ref_job3 := ties_job3]> scenario_store.
Definition ties_final : store :=
  <[ref_job3 := annotated ties_job3 1]>
    (<[ref_job2 := annotated scenario_job2 2]>
       (<[ref_job1 := annotated scenario_job1 1]> ties_store)).
Definition ties_response : response :=
  Response [ref_job2; ref_job1; ref_job3].

(** A candidate without skills and a job that has no [required_skills]. *)
Definition idle_store : store :=
  {[ ref_candidate := {[ "skills" := VList [] ]}; ref_job1 := ∅ ]}.

(** The candidate of scenario 1 with a third job that shares no skill. *)
Definition miss_job : dict := {[ "required_skills" := VList [VStr "go"] ]}.
Definition miss_store : store := <[ref_job3 := miss_job]> scenario_store.
Definition miss_final : store :=
  <[ref_job2 := annotated scenario_job2 2]>
    (<[ref_job1 := annotated scenario_job1 1]> miss_store).

(** A candidate who writes skills with another case and with a space. *)
Definition cased_candidate : dict :=
  {[ "skills" := VList [VStr "Python"; VStr "python "; VStr "sql"] ]}.

(** ** The liveness endpoint

    [home()] returns a fixed message and reads nothing. *)
Definition home : dict := {[ "message" := VStr "Job Matcher API Running" ]}.

(** ** More requests used as examples *)

(** The request of scenario 1 with a job that has no [required_skills]. *)
Definition broken_store : store := <[ref_job3 := ∅]> scenario_store.
Definition broken_after_job1 : store :=
  <[ref_job1 := annotated scenario_job1 1]> broken_store.

(** A second candidate, with the skills of scenario 1 in the other order. *)
Definition ref_candidate2 : loc := 4%nat.
Definition swapped_candidate : dict :=
  {[ "skills" := VList [VStr "sql"; VStr "python"] ]}.
Definition two_candidates_store : store :=
  <[ref_candidate2 := swapped_candidate]> scenario_store.

(** A job whose [required_skills] is one string, not a list. *)
Definition text_job : dict := {[ "required_skills" := VStr "python, sql" ]}.

(** * Properties *)

(** Runs the binds of a statement on the current store. *)
Ltac run_M := unfold mbind, mret, M_bind, M_ret, load, eval, setitem; simpl.

(** ** The score reads two keys only *)

Section score_facts.
Implicit Types (candidate job : dict) (skills : list value) (k : string).

Lemma sum_in_insert_ne job k v skills acc :
  k ≠ "required_skills" →
  sum_in (<[k := v]> job) skills acc = sum_in job skills acc.
Proof.
  intros Hk. revert acc. induction skills as [|skill rest IH]; intros acc.
  - reflexivity.
  - simpl. unfold getitem. rewrite lookup_insert_ne by done.
    destruct (job !! "required_skills") as [required|]; simpl; [|done].
    destruct (py_in skill required); simpl; [apply IH|done].
Qed.

Lemma score_insert_job candidate job k v :
  k ≠ "required_skills" →
  score candidate (<[k := v]> job) = score candidate job.
Proof.
  intros Hk. unfold score.
  destruct (getitem candidate "skills") as [skills|]; simpl; [|done].
  destruct (py_iter skills); simpl; [|done].
  by apply sum_in_insert_ne.
Qed.

Lemma score_insert_candidate candidate job k v :
  k ≠ "skills" →
  score (<[k := v]> candidate) job = score candidate job.
Proof.
  intros Hk. unfold score, getitem. by rewrite lookup_insert_ne.
Qed.

Lemma hits_cons required skill rest :
  hits required (skill :: rest) =
  (if decide (py_in skill required = Ok true) then 1 else 0)
  + hits required rest.
Proof.
  unfold hits. rewrite filter_cons. case_decide; simpl length; lia.
Qed.

Lemma hits_bounds required skills :
  0 ≤ hits required skills ≤ Z.of_nat (length skills).
Proof.
  unfold hits. pose proof (length_filter
    (λ skill, py_in skill required = Ok true) skills). lia.
Qed.

(** A sum that returns has read [required_skills] unless there was no
    skill, and has added one for every skill found in it. *)
Lemma sum_in_Ok job skills acc z :
  sum_in job skills acc = Ok z →
  (skills = [] ∧ z = acc) ∨
  (∃ required, job !! "required_skills" = Some required ∧
     Forall (λ skill, ∃ b, py_in skill required = Ok b) skills ∧
     z = acc + hits required skills).
Proof.
  revert acc. induction skills as [|skill rest IH]; intros acc Hsum.
  - left. simpl in Hsum. by inversion Hsum.
  - right. simpl in Hsum. unfold getitem in Hsum.
    destruct (job !! "required_skills") as [required|] eqn:Hreq;
      simpl in Hsum; [|done].
    destruct (py_in skill required) as [b|] eqn:Hin; simpl in Hsum; [|done].
    exists required. split; [done|].
    rewrite hits_cons.
    destruct (IH _ Hsum) as [[-> ->]|(required' & Hreq' & Hall & ->)].
    + split; [by repeat constructor; eauto|].
      destruct b; case_decide; try congruence; unfold hits; simpl; lia.
    + injection Hreq' as <-.
      split; [constructor; eauto|].
      destruct b; case_decide; try congruence; simpl; lia.
Qed.

Lemma sum_in_total job required skills acc :
  job !! "required_skills" = Some required →
  Forall (λ skill, ∃ b, py_in skill required = Ok b) skills →
  sum_in job skills acc = Ok (acc + hits required skills).
Proof.
  intros Hreq Hall. revert acc.
  induction Hall as [|skill rest [b Hb] _ IH]; intros acc.
  - simpl. unfold hits. simpl. f_equal. lia.
  - simpl. unfold getitem. rewrite Hreq. simpl. rewrite Hb. simpl.
    rewrite IH, hits_cons. f_equal.
    destruct b; case_decide; try congruence; simpl; lia.
Qed.

(** When the sum raises: there is a skill, and [required_skills] is
    missing or the membership test of some skill raises. *)
Lemma sum_in_Raise job skills acc :
  (∃ e, sum_in job skills acc = Raise e) ↔
  skills ≠ [] ∧
  (job !! "required_skills" = None ∨
   ∃ required, job !! "required_skills" = Some required ∧
     Exists (λ skill, ∃ e, py_in skill required = Raise e) skills).
Proof.
  split.
  - intros [e He]. revert acc He.
    induction skills as [|skill rest IH]; intros acc He; [done|].
    split; [done|]. simpl in He. unfold getitem in He.
    destruct (job !! "required_skills") as [required|] eqn:Hreq;
      simpl in He; [|by left].
    right. exists required. split; [done|].
    destruct (py_in skill required) as [b|e'] eqn:Hin; simpl in He.
    + apply Exists_cons_tl.
      destruct (IH _ He) as [_ [?|(required' & ? & ?)]]; by simplify_eq.
    + apply Exists_cons_hd. eauto.
  - intros [Hne [Hnone|(required & Hreq & Hex)]].
    + destruct skills as [|skill rest]; [done|].
      exists (KeyError "required_skills"). simpl. unfold getitem.
      by rewrite Hnone.
    + clear Hne. revert acc.
      induction Hex as [skill rest [e He]|skill rest _ IH]; intros acc.
      * exists e. simpl. unfold getitem. rewrite Hreq. simpl.
        by rewrite He.
      * simpl. unfold getitem. rewrite Hreq. simpl.
        destruct (py_in skill required); simpl; eauto.
Qed.
End score_facts.

(** ** The sort: a stable sort by decreasing key *)

Lemma filter_Forall_id {A} (P : A → Prop) `{!∀ x, Decision (P x)}
    (l : list A) :
  Forall P l → filter P l = l.
Proof.
  induction 1 as [|x l Hx _ IH]; [done|].
  by rewrite filter_cons_True, IH.
Qed.

Section sort_facts.
Implicit Types (x y : Z * loc) (l : list (Z * loc)).

Lemma insert_desc_perm x l : insert_desc x l ≡ₚ x :: l.
Proof.
  induction l as [|y l IH]; simpl; [done|].
  destruct (y.1 <=? x.1); [done|].
  rewrite IH. apply Permutation_swap.
Qed.

Lemma sort_desc_perm l : sort_desc l ≡ₚ l.
Proof.
  induction l as [|x l IH]; simpl; [done|].
  by rewrite insert_desc_perm, IH.
Qed.

Lemma insert_desc_sorted x l :
  StronglySorted key_ge l → StronglySorted key_ge (insert_desc x l).
Proof.
  induction 1 as [|y l Hl IH Hy]; simpl.
  - repeat constructor.
  - destruct (Z.leb_spec y.1 x.1) as [Hle|Hlt].
    + constructor; [by constructor|].
      constructor; [done|].
      eapply Forall_impl; [exact Hy|]. unfold key_ge. intros; lia.
    + constructor; [done|].
      rewrite insert_desc_perm. constructor; [|done].
      unfold key_ge. lia.
Qed.

Lemma sort_desc_sorted l : StronglySorted key_ge (sort_desc l).
Proof.
  induction l as [|x l IH]; simpl; [constructor|].
  by apply insert_desc_sorted.
Qed.

(** Stability: the entries with a given key are in the order they had. *)
Lemma insert_desc_stable z x l :
  filter (λ y, y.1 = z) (insert_desc x l) = filter (λ y, y.1 = z) (x :: l).
Proof.
  induction l as [|y l IH]; simpl; [done|].
  destruct (Z.leb_spec y.1 x.1) as [Hle|Hlt]; [done|].
  rewrite (filter_cons _ y), IH, !filter_cons.
  repeat case_decide; try done; lia.
Qed.

Lemma sort_desc_stable z l :
  filter (λ y, y.1 = z) (sort_desc l) = filter (λ y, y.1 = z) l.
Proof.
  induction l as [|x l IH]; simpl; [done|].
  by rewrite insert_desc_stable, !filter_cons, IH.
Qed.

(** A list that is already in decreasing order is left as it is. *)
Lemma sort_desc_id l : StronglySorted key_ge l → sort_desc l = l.
Proof.
  induction 1 as [|x l Hl IH Hx]; simpl; [done|].
  rewrite IH. destruct Hx as [|y l Hy _]; simpl; [done|].
  unfold key_ge in Hy. by destruct (Z.leb_spec y.1 x.1); [|lia].
Qed.

Lemma sort_desc_idemp l : sort_desc (sort_desc l) = sort_desc l.
Proof. apply sort_desc_id, sort_desc_sorted. Qed.

Lemma keyed_perm_Forall (f : loc → Z) (js : list loc) l :
  l ≡ₚ keyed f <$> js → Forall (λ y, y.1 = f y.2) l.
Proof. intros ->. rewrite Forall_fmap. by apply Forall_true. Qed.

Lemma keyed_snd (f : loc → Z) l :
  Forall (λ y, y.1 = f y.2) l → keyed f <$> l.*2 = l.
Proof.
  induction 1 as [|[k j] l Hk _ IH]; csimpl; [done|].
  simpl in Hk. rewrite IH. unfold keyed. by rewrite <- Hk.
Qed.

Lemma filter_keyed (f : loc → Z) (P : Z → Prop) `{!∀ z, Decision (P z)}
    l :
  Forall (λ y, y.1 = f y.2) l →
  (filter (λ y, P y.1) l).*2 = filter (λ j, P (f j)) l.*2.
Proof.
  induction 1 as [|[k j] l Hk _ IH]; csimpl; [done|].
  simpl in Hk. subst k. rewrite !filter_cons. simpl.
  case_decide; csimpl; by rewrite IH.
Qed.

Lemma sorted_keyed (f : loc → Z) l :
  Forall (λ y, y.1 = f y.2) l →
  StronglySorted key_ge l →
  StronglySorted (λ a b, f b ≤ f a) l.*2.
Proof.
  intros Hall Hsorted. induction Hsorted as [|x l _ IH Hx]; csimpl.
  { constructor. }
  apply Forall_cons in Hall as [Hk Hall].
  constructor; [by apply IH|].
  rewrite Forall_fmap. rewrite Forall_forall in Hall, Hx |- *.
  intros y Hy. simpl. rewrite <- Hk, <- (Hall y Hy). by apply Hx.
Qed.
End sort_facts.

(** ** The loop *)

Section loop_facts.
Implicit Types (σ : store) (c j l : loc) (js : list loc).

Lemma deref_insert σ l d l' :
  deref (<[l := d]> σ) l' = if decide (l = l') then d else deref σ l'.
Proof.
  unfold deref. rewrite lookup_insert. by case_decide.
Qed.

Lemma annotated_lookup_ne d z k :
  k ≠ "match_score" → annotated d z !! k = d !! k.
Proof. intros. unfold annotated. by rewrite lookup_insert_ne. Qed.

Lemma annotated_idemp d z : annotated (annotated d z) z = annotated d z.
Proof. unfold annotated. apply insert_insert_eq. Qed.

Lemma score_annotated_job d d' z : score d (annotated d' z) = score d d'.
Proof. by apply score_insert_job. Qed.

Lemma score_annotated_candidate d d' z : score (annotated d z) d' = score d d'.
Proof. by apply score_insert_candidate. Qed.

(** Assigning [match_score] anywhere changes no score. *)
Lemma score_at_write σ l z c j :
  score_at (<[l := annotated (deref σ l) z]> σ) c j = score_at σ c j.
Proof.
  unfold score_at. rewrite !deref_insert.
  repeat case_decide; subst;
    by rewrite ?score_annotated_job, ?score_annotated_candidate.
Qed.

Lemma score_val_write σ l z c j :
  score_val (<[l := annotated (deref σ l) z]> σ) c j = score_val σ c j.
Proof. unfold score_val. by rewrite score_at_write. Qed.

Lemma is_match_write σ l z c j :
  is_match (<[l := annotated (deref σ l) z]> σ) c j ↔ is_match σ c j.
Proof. unfold is_match. by rewrite score_val_write. Qed.

Lemma score_val_Ok σ c j z : score_at σ c j = Ok z → score_val σ c j = z.
Proof. unfold score_val. by intros ->. Qed.

Lemma is_match_Ok σ c j :
  is_match σ c j → ∃ z, score_at σ c j = Ok z ∧ 0 < z.
Proof.
  unfold is_match, score_val.
  destruct (score_at σ c j) as [z|]; [eauto|lia].
Qed.

Lemma for_jobs_cons c j js matched σ :
  for_jobs c (j :: js) matched σ =
  match score_at σ c j with
  | Raise e => (Raise e, σ)
  | Ok s =>
      if 0 <? s
      then for_jobs c js (matched ++ [j]) (<[j := annotated (deref σ j) s]> σ)
      else for_jobs c js matched σ
  end.
Proof.
  unfold score_at. simpl. run_M.
  destruct (score (deref σ c) (deref σ j)) as [s|]; [|done].
  by destruct (0 <? s).
Qed.

Lemma for_jobs_spec c js : ∀ matched σ o σ',
  for_jobs c js matched σ = (o, σ') →
  (∀ l, σ' !! l = σ !! l ∨ (l ∈ js ∧ kept σ σ' c l)) ∧
  (∀ r, o = Ok r →
     r = matched ++ filter (is_match σ c) js ∧
     Forall (λ j, ∃ z, score_at σ c j = Ok z) js ∧
     ∀ l, l ∈ js → is_match σ c l → kept σ σ' c l) ∧
  (∀ e, o = Raise e → Exists (λ j, score_at σ c j = Raise e) js).
Proof.
  induction js as [|j js IH]; intros matched σ o σ' Hrun.
  { simpl in Hrun. injection Hrun as <- <-. split_and!.
    - by left.
    - intros r [= <-]. rewrite filter_nil, app_nil_r.
      split_and!; [done|constructor|]. by intros l ?%elem_of_nil.
    - done. }
  rewrite for_jobs_cons in Hrun.
  destruct (score_at σ c j) as [s|e] eqn:Hs.
  2:{ injection Hrun as <- <-. split_and!.
      - by left.
      - done.
      - intros e' [= <-]. by apply Exists_cons_hd. }
  pose proof (score_val_Ok _ _ _ _ Hs) as Hval.
  destruct (Z.ltb_spec 0 s) as [Hpos|Hnpos].
  - (* the job is kept: [job["match_score"] = score] *)
    set (σ1 := <[j := annotated (deref σ j) s]> σ) in *.
    assert (is_match σ c j) as Hj by (unfold is_match; lia).
    assert (∀ l, kept σ1 σ' c l → kept σ σ' c l) as Hkept.
    { intros l [Hm Hl]. unfold σ1 in Hm, Hl.
      rewrite is_match_write in Hm. split; [done|].
      rewrite Hl, score_val_write, deref_insert.
      case_decide; [subst l|done].
      by rewrite Hval, annotated_idemp. }
    destruct (IH _ _ _ _ Hrun) as (Hframe & Hok & Herr). split_and!.
    + intros l. destruct (Hframe l) as [Hl|[Hin Hl]].
      * destruct (decide (j = l)) as [->|Hne].
        -- right. split; [left|]. split; [done|].
           rewrite Hl. unfold σ1. by rewrite lookup_insert_eq, Hval.
        -- left. rewrite Hl. unfold σ1. by rewrite lookup_insert_ne.
      * right. split; [by right|]. by apply Hkept.
    + intros r Hr. destruct (Hok r Hr) as (-> & Hall & Hin).
      split_and!.
      * rewrite filter_cons, decide_True by done.
        rewrite <- app_assoc. simpl. f_equal. f_equal.
        apply list_filter_iff. intros l. apply is_match_write.
      * constructor; [eauto|].
        eapply Forall_impl; [exact Hall|]. simpl. intros l.
        unfold σ1. by rewrite score_at_write.
      * intros l Hl Hm.
        destruct (decide (l ∈ js)) as [Hjs|Hjs].
        -- apply Hkept, Hin; [done|]. unfold σ1. by apply is_match_write.
        -- apply elem_of_cons in Hl as [->|?]; [|done].
           destruct (Hframe j) as [Hl|[? _]]; [|done].
           split; [done|]. rewrite Hl. unfold σ1.
           by rewrite lookup_insert_eq, Hval.
    + intros e He. apply Exists_cons_tl.
      eapply Exists_impl; [exact (Herr e He)|]. simpl. intros l.
      unfold σ1. by rewrite score_at_write.
  - (* the job is skipped *)
    assert (¬ is_match σ c j) as Hj by (unfold is_match; lia).
    destruct (IH _ _ _ _ Hrun) as (Hframe & Hok & Herr). split_and!.
    + intros l. destruct (Hframe l) as [Hl|[Hin Hl]]; [by left|].
      right. split; [by right|done].
    + intros r Hr. destruct (Hok r Hr) as (-> & Hall & Hin).
      split_and!.
      * by rewrite filter_cons, decide_False.
      * constructor; eauto.
      * intros l [->|Hl]%elem_of_cons Hm; [done|by apply Hin].
    + intros e He. by apply Exists_cons_tl, Herr.
Qed.
End loop_facts.

(** ** The handler as a whole *)

Section handler_facts.
Implicit Types (σ : store) (c j l : loc) (js : list loc).

Lemma sort_key_Some d z :
  sort_key d = Ok z ↔ d !! "match_score" = Some (VInt z).
Proof.
  unfold sort_key, getitem.
  destruct (d !! "match_score") as [[]|]; simpl; naive_solver.
Qed.

Lemma sort_key_annotated d z : sort_key (annotated d z) = Ok z.
Proof. apply sort_key_Some. unfold annotated. apply lookup_insert_eq. Qed.

Lemma kept_deref σ σ' c l :
  kept σ σ' c l → deref σ' l = annotated (deref σ l) (score_val σ c l).
Proof. intros [_ Hl]. unfold deref at 1. by rewrite Hl. Qed.

Lemma decorate_ok (f : loc → Z) js σ :
  Forall (λ l, sort_key (deref σ l) = Ok (f l)) js →
  decorate js σ = (Ok (keyed f <$> js), σ).
Proof.
  induction 1 as [|j js Hj _ IH]; [done|].
  simpl. run_M. by rewrite Hj, IH.
Qed.

(** The sort does not raise on entries that hold an integer score. *)
Lemma sort_by_score_ok (f : loc → Z) js σ :
  Forall (λ l, sort_key (deref σ l) = Ok (f l)) js →
  sort_by_score js σ = (Ok (sort_desc (keyed f <$> js)).*2, σ).
Proof.
  intros Hkeys. unfold sort_by_score. run_M. by rewrite (decorate_ok f).
Qed.

Lemma ranking_perm σ c js : ranking σ c js ≡ₚ filter (is_match σ c) js.
Proof.
  unfold ranking. rewrite sort_desc_perm, <- list_fmap_compose.
  by rewrite list_fmap_id.
Qed.

Lemma elem_of_ranking σ c js l :
  l ∈ ranking σ c js ↔ is_match σ c l ∧ l ∈ js.
Proof. by rewrite ranking_perm, list_elem_of_filter. Qed.

Lemma ranking_keyed σ c js :
  Forall (λ y, y.1 = score_val σ c y.2)
    (sort_desc (keyed (score_val σ c) <$> filter (is_match σ c) js)).
Proof. eapply keyed_perm_Forall, sort_desc_perm. Qed.

Lemma ranking_sorted σ c js :
  StronglySorted (λ a b, score_val σ c b ≤ score_val σ c a)
    (ranking σ c js).
Proof.
  apply sorted_keyed; [apply ranking_keyed|apply sort_desc_sorted].
Qed.

Lemma ranking_stable σ c js z :
  filter (λ l, score_val σ c l = z) (ranking σ c js) =
  filter (λ l, score_val σ c l = z) (filter (is_match σ c) js).
Proof.
  pose proof (filter_keyed (score_val σ c) (λ k, k = z)) as Hkeyed.
  simpl in Hkeyed. unfold ranking.
  rewrite <- Hkeyed by apply ranking_keyed.
  rewrite sort_desc_stable, Hkeyed.
  - by rewrite <- list_fmap_compose, list_fmap_id.
  - rewrite Forall_fmap. by apply Forall_true.
Qed.

(** Ranking a ranking changes nothing. *)
Lemma ranking_idemp σ c js : ranking σ c (ranking σ c js) = ranking σ c js.
Proof.
  unfold ranking at 1.
  assert (filter (is_match σ c) (ranking σ c js) = ranking σ c js) as ->.
  { apply filter_Forall_id, Forall_forall. intros l.
    rewrite elem_of_ranking. tauto. }
  unfold ranking. rewrite keyed_snd by apply ranking_keyed.
  by rewrite sort_desc_idemp.
Qed.

Lemma ranking_ext σ σ' c js :
  (∀ j, score_at σ' c j = score_at σ c j) →
  ranking σ' c js = ranking σ c js.
Proof.
  intros Heq.
  assert (∀ j, score_val σ' c j = score_val σ c j) as Hval.
  { intros j. unfold score_val. by rewrite Heq. }
  unfold ranking. f_equal. f_equal.
  rewrite (list_filter_iff (is_match σ' c) (is_match σ c)).
  - apply list_fmap_ext. intros _ j _. unfold keyed. by rewrite Hval.
  - intros j. unfold is_match. by rewrite Hval.
Qed.

(** The complete description of a run of the handler. *)
Lemma match_jobs_spec c js σ o σ' :
  match_jobs c js σ = (o, σ') →
  (∀ l, σ' !! l = σ !! l ∨ (l ∈ js ∧ kept σ σ' c l)) ∧
  (∀ r, o = Ok r →
     matches r = ranking σ c js ∧
     Forall (λ j, ∃ z, score_at σ c j = Ok z) js ∧
     ∀ l, l ∈ js → is_match σ c l → kept σ σ' c l) ∧
  (∀ e, o = Raise e → Exists (λ j, score_at σ c j = Raise e) js).
Proof.
  unfold match_jobs, mbind, M_bind.
  destruct (for_jobs c js [] σ) as [[matched|e] σ1] eqn:Hloop.
  - destruct (for_jobs_spec _ _ _ _ _ _ Hloop) as (Hframe & Hok & _).
    destruct (Hok _ eq_refl) as (-> & Hall & Hkept). simpl.
    rewrite (sort_by_score_ok (score_val σ c)).
    + intros [= <- <-]. split_and!; [done| |done].
      intros r [= <-]. done.
    + apply Forall_forall. intros l [Hm Hl]%list_elem_of_filter.
      rewrite (kept_deref σ σ1 c l) by auto. apply sort_key_annotated.
  - intros [= <- <-].
    destruct (for_jobs_spec _ _ _ _ _ _ Hloop) as (Hframe & _ & Herr).
    split_and!; [done|done|]. intros e' [= <-]. by apply Herr.
Qed.

Lemma match_jobs_total c js σ :
  Forall (λ j, ∃ z, score_at σ c j = Ok z) js →
  ∃ σ', match_jobs c js σ = (Ok (Response (ranking σ c js)), σ').
Proof.
  intros Hall.
  destruct (match_jobs c js σ) as [[[r]|e] σ'] eqn:Hrun.
  - destruct (match_jobs_spec _ _ _ _ _ Hrun) as (_ & Hok & _).
    destruct (Hok _ eq_refl) as (Hr & _). simpl in Hr. subst r. eauto.
  - exfalso.
    destruct (match_jobs_spec _ _ _ _ _ Hrun) as (_ & _ & Herr).
    destruct (proj1 (Exists_exists _ _) (Herr e eq_refl)) as (j & Hj & He).
    rewrite Forall_forall in Hall. destruct (Hall j Hj) as [z Hz]. congruence.
Qed.

(** The store after a run, object by object. *)
Lemma match_jobs_store c js σ r σ' l :
  match_jobs c js σ = (Ok r, σ') →
  σ' !! l =
  if decide (l ∈ matches r)
  then Some (annotated (deref σ l) (score_val σ c l))
  else σ !! l.
Proof.
  intros Hrun.
  destruct (match_jobs_spec _ _ _ _ _ Hrun) as (Hframe & Hok & _).
  destruct (Hok _ eq_refl) as (-> & _ & Hkept).
  case_decide as Hl.
  - apply elem_of_ranking in Hl as [Hm Hl]. by apply Hkept.
  - destruct (Hframe l) as [?|[Hin [Hm _]]]; [done|].
    exfalso. apply Hl, elem_of_ranking. done.
Qed.

(** No run changes a score. *)
Lemma match_jobs_score_at c js σ o σ' c' j :
  match_jobs c js σ = (o, σ') → score_at σ' c' j = score_at σ c' j.
Proof.
  intros Hrun.
  destruct (match_jobs_spec _ _ _ _ _ Hrun) as (Hframe & _).
  assert (∀ l, deref σ' l = deref σ l ∨
               ∃ z, deref σ' l = annotated (deref σ l) z) as Hd.
  { intros l. destruct (Hframe l) as [Hl|[_ Hk]].
    - left. unfold deref. by rewrite Hl.
    - right. eexists. by apply kept_deref. }
  unfold score_at.
  destruct (Hd c') as [->|[z ->]], (Hd j) as [->|[z' ->]];
    by rewrite ?score_annotated_job, ?score_annotated_candidate.
Qed.
End handler_facts.

(** ** Auxiliary facts for the theorems *)

Lemma filter_iff_elem_of {A} (P Q : A → Prop)
    `{!∀ x, Decision (P x), !∀ x, Decision (Q x)} (l : list A) :
  (∀ x, x ∈ l → P x ↔ Q x) → filter P l = filter Q l.
Proof.
  induction l as [|x l IH]; intros Hiff; [done|].
  rewrite !filter_cons, IH by (intros; apply Hiff; by right).
  pose proof (Hiff x (list_elem_of_here _ _)).
  repeat case_decide; tauto.
Qed.

Lemma StronglySorted_impl_elem_of {A} (R R' : relation A) (l : list A) :
  (∀ a b, a ∈ l → b ∈ l → R a b → R' a b) →
  StronglySorted R l → StronglySorted R' l.
Proof.
  intros Himpl Hsorted. induction Hsorted as [|x l _ IH Hx].
  { constructor. }
  constructor.
  - apply IH. intros a b Ha Hb. apply Himpl; by right.
  - rewrite Forall_forall in Hx |- *. intros y Hy.
    apply Himpl; [left|by right|by apply Hx].
Qed.

Section claim_facts.
Implicit Types (σ : store) (c j l : loc) (js : list loc).

(** Only [match_score] is ever assigned. *)
Lemma match_jobs_frame_key c js σ o σ' l k :
  match_jobs c js σ = (o, σ') →
  k ≠ "match_score" → deref σ' l !! k = deref σ l !! k.
Proof.
  intros Hrun Hk.
  destruct (match_jobs_spec _ _ _ _ _ Hrun) as (Hframe & _).
  destruct (Hframe l) as [Hl|[_ Hkept]].
  - unfold deref. by rewrite Hl.
  - rewrite (kept_deref _ _ _ _ Hkept). by apply annotated_lookup_ne.
Qed.

(** A job of the result holds its score under [match_score]. *)
Lemma result_has_score c js σ r σ' j :
  match_jobs c js σ = (Ok r, σ') → j ∈ matches r →
  j ∈ js ∧ 0 < score_val σ c j ∧
  score_at σ c j = Ok (score_val σ c j) ∧
  deref σ' j = annotated (deref σ j) (score_val σ c j) ∧
  ∀ z, has_score σ' z j ↔ score_val σ c j = z.
Proof.
  intros Hrun Hj.
  destruct (match_jobs_spec _ _ _ _ _ Hrun) as (_ & Hok & _).
  destruct (Hok _ eq_refl) as (Hr & _ & Hkept).
  rewrite Hr in Hj. apply elem_of_ranking in Hj as [Hm Hj].
  pose proof (kept_deref _ _ _ _ (Hkept j Hj Hm)) as Hd.
  destruct (is_match_Ok _ _ _ Hm) as (z & Hz & Hpos).
  rewrite (score_val_Ok _ _ _ _ Hz) in *.
  split_and!; try done.
  intros z'. unfold has_score. rewrite Hd. unfold annotated.
  rewrite lookup_insert_eq. split; congruence.
Qed.

Lemma sum_in_app job skills1 skills2 acc :
  sum_in job (skills1 ++ skills2) acc =
  sum_in job skills1 acc ≫= sum_in job skills2.
Proof.
  revert acc. induction skills1 as [|skill rest IH]; intros acc; [done|].
  simpl. destruct (getitem job "required_skills") as [required|]; [|done].
  simpl. destruct (py_in skill required); simpl; [apply IH|done].
Qed.

(** A string equals only itself. *)
Lemma py_eq_str s v : py_eq (VStr s) v = true ↔ v = VStr s.
Proof.
  destruct v; simpl; try (split; [done|congruence]).
  rewrite String.eqb_eq. split; congruence.
Qed.

Lemma py_in_list_str s required :
  py_in (VStr s) (VList required) = Ok true ↔ VStr s ∈ required.
Proof.
  simpl. split.
  - intros [= (v & Hv & ->%py_eq_str)%existsb_exists].
    by apply list_elem_of_In.
  - intros Hin%list_elem_of_In. f_equal. apply existsb_exists.
    exists (VStr s). split; [done|]. by apply (py_eq_str s (VStr s)).
Qed.

(** Membership in a list depends on which values the list holds, not on how
    often or where it holds them. *)
Lemma py_in_list_same_members x xs ys :
  (∀ v, v ∈ xs ↔ v ∈ ys) → py_in x (VList xs) = py_in x (VList ys).
Proof.
  intros Hsame. simpl. f_equal. apply eq_true_iff_eq.
  rewrite !existsb_exists. setoid_rewrite <- list_elem_of_In.
  split; intros (v & Hv & Heq); exists v; by rewrite ?Hsame in *.
Qed.

Lemma hits_same_members xs ys skills :
  (∀ v, v ∈ xs ↔ v ∈ ys) →
  hits (VList xs) skills = hits (VList ys) skills.
Proof.
  intros Hsame. unfold hits. do 2 f_equal.
  apply list_filter_iff. intros skill.
  by rewrite (py_in_list_same_members skill xs ys).
Qed.

Lemma py_in_list_str_absent s required :
  VStr s ∉ required → py_in (VStr s) (VList required) = Ok false.
Proof.
  intros Hnot. pose proof (py_in_list_str s required) as Hiff.
  simpl in *. destruct (existsb _ _); [|done].
  exfalso. by apply Hnot, Hiff.
Qed.
End claim_facts.

(** * The properties of the specification *)

(** C1.  Every job of the result carries, under [match_score], the number of
    entries of [candidate["skills"]] (each entry counted, repeated entries
    counted again) that are in the job's [required_skills].  An entry counts
    once, however often [required_skills] lists it: the number is the same
    for any list that holds the same values.  The two keys read hold the
    same values before and after the call. *)
Theorem match_score_counts_members c js σ r σ' j :
  match_jobs c js σ = (Ok r, σ') →
  j ∈ matches r →
  ∃ skills items required,
    deref σ c !! "skills" = Some skills ∧
    deref σ' c !! "skills" = Some skills ∧
    py_iter skills = Ok items ∧
    deref σ j !! "required_skills" = Some required ∧
    deref σ' j !! "required_skills" = Some required ∧
    deref σ' j !! "match_score" =
      Some (VInt (Z.of_nat (length
        (filter (λ skill, py_in skill required = Ok true) items)))) ∧
    ∀ entries entries',
      required = VList entries →
      (∀ v, v ∈ entries ↔ v ∈ entries') →
      deref σ' j !! "match_score" =
        Some (VInt (Z.of_nat (length
          (filter (λ skill, py_in skill (VList entries') = Ok true) items)))).
Proof.
  intros Hrun Hj.
  destruct (result_has_score _ _ _ _ _ _ Hrun Hj) as (_ & Hpos & Hs & Hd & _).
  unfold score_at, score, getitem in Hs.
  destruct (deref σ c !! "skills") as [skills|] eqn:Hskills; [|done].
  simpl in Hs.
  destruct (py_iter skills) as [items|] eqn:Hitems; [|done]. simpl in Hs.
  apply sum_in_Ok in Hs as [[_ Hz]|(required & Hreq & _ & Hz)]; [lia|].
  exists skills, items, required.
  rewrite !(match_jobs_frame_key _ _ _ _ _ _ _ Hrun) by done.
  assert (deref σ' j !! "match_score" = Some (VInt (hits required items)))
    as Hscore.
  { rewrite Hd, Hz. unfold annotated. by rewrite lookup_insert_eq. }
  split_and!; try done.
  intros entries entries' -> Hsame.
  rewrite Hscore. do 2 f_equal. by apply hits_same_members.
Qed.

Lemma match_score_counts_members_witness :
  match_jobs ref_candidate [ref_job1; ref_job2] scenario_store =
    (Ok scenario_response, scenario_final) ∧
  ref_job2 ∈ matches scenario_response ∧
  ∃ skills items required,
    deref scenario_store ref_candidate !! "skills" = Some skills ∧
    deref scenario_final ref_candidate !! "skills" = Some skills ∧
    py_iter skills = Ok items ∧
    deref scenario_store ref_job2 !! "required_skills" = Some required ∧
    deref scenario_final ref_job2 !! "required_skills" = Some required ∧
    deref scenario_final ref_job2 !! "match_score" =
      Some (VInt (Z.of_nat (length
        (filter (λ skill, py_in skill required = Ok true) items)))) ∧
    ∀ entries entries',
      required = VList entries →
      (∀ v, v ∈ entries ↔ v ∈ entries') →
      deref scenario_final ref_job2 !! "match_score" =
        Some (VInt (Z.of_nat (length
          (filter (λ skill, py_in skill (VList entries') = Ok true) items)))).
Proof.
  split; [vm_compute; reflexivity|].
  split; [apply list_elem_of_here|].
  apply (match_score_counts_members ref_candidate [ref_job1; ref_job2]
           scenario_store scenario_response scenario_final ref_job2).
  - vm_compute; reflexivity.
  - apply list_elem_of_here.
Defined.

(** C2.  The result is in decreasing order of [match_score]: every job of
    the result holds a score at least as large as every job after it.  The
    jobs of the result that hold a given score are, in this order, the jobs
    of the input list that are in the result and hold that score: the sort
    is stable, with the order of the input list for equal scores. *)
Theorem result_sorted_stable c js σ r σ' :
  match_jobs c js σ = (Ok r, σ') →
  StronglySorted
    (λ a b, ∃ x y, has_score σ' x a ∧ has_score σ' y b ∧ y ≤ x)
    (matches r) ∧
  ∀ z, filter (has_score σ' z) (matches r) =
       filter (has_score σ' z) (filter (λ j, j ∈ matches r) js).
Proof.
  intros Hrun.
  pose proof (λ j, result_has_score _ _ _ _ _ j Hrun) as Hres.
  destruct (match_jobs_spec _ _ _ _ _ Hrun) as (_ & Hok & _).
  destruct (Hok _ eq_refl) as (Hr & _ & _).
  split.
  - eapply StronglySorted_impl_elem_of;
      [|rewrite Hr; apply ranking_sorted].
    intros a b Ha Hb Hle.
    exists (score_val σ c a), (score_val σ c b).
    split_and!; [by apply (Hres a Ha)|by apply (Hres b Hb)|done].
  - intros z.
    rewrite (filter_iff_elem_of (has_score σ' z)
               (λ j, score_val σ c j = z) (matches r))
      by (intros j Hj; apply (Hres j Hj)).
    rewrite Hr, ranking_stable, <- Hr.
    rewrite (filter_iff_elem_of (is_match σ c) (λ j, j ∈ matches r) js).
    + apply filter_iff_elem_of.
      intros j [Hj _]%list_elem_of_filter. symmetry. apply (Hres j Hj).
    + intros j Hj. rewrite Hr, elem_of_ranking. tauto.
Qed.

Lemma result_sorted_stable_witness :
  match_jobs ref_candidate [ref_job1; ref_job2; ref_job3] ties_store =
    (Ok ties_response, ties_final) ∧
  StronglySorted
    (λ a b, ∃ x y,
       has_score ties_final x a ∧ has_score ties_final y b ∧ y ≤ x)
    (matches ties_response) ∧
  ∀ z, filter (has_score ties_final z) (matches ties_response) =
       filter (has_score ties_final z)
         (filter (λ j, j ∈ matches ties_response)
            [ref_job1; ref_job2; ref_job3]).
Proof.
  split; [vm_compute; reflexivity|].
  apply (result_sorted_stable ref_candidate [ref_job1; ref_job2; ref_job3]
           ties_store ties_response ties_final).
  vm_compute; reflexivity.
Defined.

(** C3.  Every job of the result has a [match_score] of at least 1, a job
    whose score is 0 is not in the result, and the result is not longer than
    the input list. *)
Theorem result_scores_positive c js σ r σ' :
  match_jobs c js σ = (Ok r, σ') →
  (∀ j, j ∈ matches r → ∃ z, has_score σ' z j ∧ 1 ≤ z) ∧
  (∀ j, score_at σ c j = Ok 0 → j ∉ matches r) ∧
  (length (matches r) ≤ length js)%nat.
Proof.
  intros Hrun.
  pose proof (λ j, result_has_score _ _ _ _ _ j Hrun) as Hres.
  split_and!.
  - intros j Hj. destruct (Hres j Hj) as (_ & Hpos & _ & _ & Hz).
    exists (score_val σ c j). split; [by apply Hz|lia].
  - intros j Hzero Hj. destruct (Hres j Hj) as (_ & Hpos & _).
    rewrite (score_val_Ok _ _ _ _ Hzero) in Hpos. lia.
  - destruct (match_jobs_spec _ _ _ _ _ Hrun) as (_ & Hok & _).
    destruct (Hok _ eq_refl) as (-> & _ & _).
    rewrite ranking_perm. apply length_filter.
Qed.

Lemma result_scores_positive_witness :
  match_jobs ref_candidate [ref_job1; ref_job2] scenario_store =
    (Ok scenario_response, scenario_final) ∧
  (∀ j, j ∈ matches scenario_response →
        ∃ z, has_score scenario_final z j ∧ 1 ≤ z) ∧
  (∀ j, score_at scenario_store ref_candidate j = Ok 0 →
        j ∉ matches scenario_response) ∧
  (length (matches scenario_response) ≤ length [ref_job1; ref_job2])%nat.
Proof.
  split; [vm_compute; reflexivity|].
  apply (result_scores_positive ref_candidate [ref_job1; ref_job2]
           scenario_store scenario_response scenario_final).
  vm_compute; reflexivity.
Defined.

(** C5.  With an empty skills list, whatever the job list, and with an empty
    job list, whatever the candidate, the call returns an empty result and
    assigns nothing; no exception is raised, even for a job without
    [required_skills] or a candidate without [skills]. *)
Theorem empty_input_empty_result c js σ :
  deref σ c !! "skills" = Some (VList []) ∨ js = [] →
  match_jobs c js σ = (Ok (Response []), σ).
Proof.
  intros [Hskills| ->]; [|reflexivity].
  assert (∀ j, score_at σ c j = Ok 0) as Hzero.
  { intros j. unfold score_at, score, getitem. by rewrite Hskills. }
  assert (ranking σ c js = []) as Hempty.
  { apply Permutation_nil_r. rewrite ranking_perm.
    induction js as [|j js IH]; [done|].
    rewrite filter_cons_False; [apply IH|].
    unfold is_match. rewrite (score_val_Ok _ _ _ _ (Hzero j)). lia. }
  destruct (match_jobs_total c js σ) as [σ' Hrun].
  { apply Forall_forall. eauto. }
  rewrite Hempty in Hrun. rewrite Hrun. f_equal.
  apply map_eq. intros l.
  rewrite (match_jobs_store _ _ _ _ _ l Hrun).
  case_decide as Hl; [|done]. by apply elem_of_nil in Hl.
Qed.

Lemma empty_input_empty_result_witness :
  (deref idle_store ref_candidate !! "skills" = Some (VList []) ∨
   [ref_job1] = []) ∧
  match_jobs ref_candidate [ref_job1] idle_store =
    (Ok (Response []), idle_store).
Proof.
  split; [left; vm_compute; reflexivity|].
  apply (empty_input_empty_result ref_candidate [ref_job1] idle_store).
  left; vm_compute; reflexivity.
Defined.

(** Running the handler again, on jobs of the first run whose ranking is the
    first result, returns that result and leaves the store as it is. *)
Lemma match_jobs_again c js js' σ r σ' :
  match_jobs c js σ = (Ok r, σ') →
  (∀ j, j ∈ js' → j ∈ js) →
  ranking σ c js' = matches r →
  match_jobs c js' σ' = (Ok r, σ').
Proof.
  intros Hrun Hsub Hrank.
  pose proof (λ j, match_jobs_score_at _ _ _ _ _ c j Hrun) as Hscore.
  destruct (match_jobs_spec _ _ _ _ _ Hrun) as (_ & Hok & _).
  destruct (Hok _ eq_refl) as (_ & Hall & _).
  destruct (match_jobs_total c js' σ') as [σ'' Hagain].
  { rewrite Forall_forall in Hall |- *. intros j Hj.
    rewrite Hscore. by apply Hall, Hsub. }
  rewrite (ranking_ext σ σ') in Hagain by done.
  rewrite Hrank in Hagain. destruct r as [ms]. simpl in *.
  rewrite Hagain. f_equal.
  apply map_eq. intros l.
  rewrite (match_jobs_store _ _ _ _ _ l Hagain).
  rewrite (match_jobs_store _ _ _ _ _ l Hrun). simpl.
  case_decide as Hl; [|done].
  destruct (result_has_score _ _ _ _ _ _ Hrun Hl) as (_ & _ & _ & -> & _).
  unfold score_val. rewrite Hscore. fold (score_val σ c l).
  by rewrite annotated_idemp.
Qed.

(** C7.  A second call, with the same candidate, on the jobs as the first
    call has left them, computes the same scores: it returns the same result
    and leaves every dict as it is, whether it is given the input list again
    or the list the first call returned.  Every score is the same in the
    store before and after the first call. *)
Theorem second_call_same_scores c js σ r σ' :
  match_jobs c js σ = (Ok r, σ') →
  (∀ j, score_at σ' c j = score_at σ c j) ∧
  match_jobs c js σ' = (Ok r, σ') ∧
  match_jobs c (matches r) σ' = (Ok r, σ').
Proof.
  intros Hrun.
  destruct (match_jobs_spec _ _ _ _ _ Hrun) as (_ & Hok & _).
  destruct (Hok _ eq_refl) as (Hr & _ & _).
  split_and!.
  - intros j. by eapply match_jobs_score_at.
  - by apply (match_jobs_again c js js σ).
  - apply (match_jobs_again c js (matches r) σ); [done| |].
    + intros j. rewrite Hr, elem_of_ranking. tauto.
    + rewrite Hr. apply ranking_idemp.
Qed.

Lemma second_call_same_scores_witness :
  match_jobs ref_candidate [ref_job1; ref_job2; ref_job3] ties_store =
    (Ok ties_response, ties_final) ∧
  (∀ j, score_at ties_final ref_candidate j =
        score_at ties_store ref_candidate j) ∧
  match_jobs ref_candidate [ref_job1; ref_job2; ref_job3] ties_final =
    (Ok ties_response, ties_final) ∧
  match_jobs ref_candidate (matches ties_response) ties_final =
    (Ok ties_response, ties_final).
Proof.
  split; [vm_compute; reflexivity|].
  apply (second_call_same_scores ref_candidate [ref_job1; ref_job2; ref_job3]
           ties_store ties_response ties_final).
  vm_compute; reflexivity.
Defined.

(** C9.  A job whose score is 0 is not in the result, and the call leaves
    its dict exactly as it was: no key is added to it.  This holds also when
    the call raises on a later job. *)
Theorem zero_score_job_untouched c js σ o σ' j :
  match_jobs c js σ = (o, σ') →
  score_at σ c j = Ok 0 →
  σ' !! j = σ !! j ∧ ∀ r, o = Ok r → j ∉ matches r.
Proof.
  intros Hrun Hzero.
  assert (¬ is_match σ c j) as Hj.
  { unfold is_match. rewrite (score_val_Ok _ _ _ _ Hzero). lia. }
  destruct (match_jobs_spec _ _ _ _ _ Hrun) as (Hframe & Hok & _).
  split.
  - by destruct (Hframe j) as [?|[_ [? _]]].
  - intros r ->. destruct (Hok _ eq_refl) as (-> & _).
    rewrite elem_of_ranking. tauto.
Qed.

Lemma zero_score_job_untouched_witness :
  match_jobs ref_candidate [ref_job1; ref_job3; ref_job2] miss_store =
    (Ok scenario_response, miss_final) ∧
  score_at miss_store ref_candidate ref_job3 = Ok 0 ∧
  miss_final !! ref_job3 = miss_store !! ref_job3 ∧
  ∀ r, Ok scenario_response = Ok r → ref_job3 ∉ matches r.
Proof.
  split; [vm_compute; reflexivity|].
  split; [vm_compute; reflexivity|].
  apply (zero_score_job_untouched ref_candidate
           [ref_job1; ref_job3; ref_job2] miss_store
           (Ok scenario_response) miss_final ref_job3).
  - vm_compute; reflexivity.
  - vm_compute; reflexivity.
Defined.

(** C6.  The call assigns [match_score] in job dicts and nothing else: a
    candidate that is a dict of its own (not one of the job dicts) is left
    exactly as it was; every key other than [match_score] keeps its value in
    every dict; a dict that is not in the job list is left as it was; and a
    job of the result is the job as it was with [match_score] assigned.
    This holds also when the call raises. *)
Theorem only_match_score_assigned c js σ o σ' :
  match_jobs c js σ = (o, σ') →
  (c ∉ js → σ' !! c = σ !! c) ∧
  (∀ l k, k ≠ "match_score" → deref σ' l !! k = deref σ l !! k) ∧
  (∀ l, l ∉ js → σ' !! l = σ !! l) ∧
  (∀ r, o = Ok r → ∀ j, j ∈ matches r →
     ∃ z, deref σ' j = <["match_score" := VInt z]> (deref σ j)).
Proof.
  intros Hrun.
  destruct (match_jobs_spec _ _ _ _ _ Hrun) as (Hframe & _).
  assert (∀ l, l ∉ js → σ' !! l = σ !! l) as Hout.
  { intros l Hl. by destruct (Hframe l) as [?|[? _]]. }
  split_and!; [by apply Hout| |done|].
  - intros l k Hk. by eapply match_jobs_frame_key.
  - intros r -> j Hj. exists (score_val σ c j).
    by destruct (result_has_score _ _ _ _ _ _ Hrun Hj) as (_ & _ & _ & -> & _).
Qed.

Lemma only_match_score_assigned_witness :
  match_jobs ref_candidate [ref_job1; ref_job2] scenario_store =
    (Ok scenario_response, scenario_final) ∧
  (ref_candidate ∉ [ref_job1; ref_job2]) ∧
  scenario_final !! ref_candidate = scenario_store !! ref_candidate ∧
  (∀ l k, k ≠ "match_score" →
          deref scenario_final l !! k = deref scenario_store l !! k) ∧
  (∀ l, l ∉ [ref_job1; ref_job2] →
        scenario_final !! l = scenario_store !! l) ∧
  (∀ r, Ok scenario_response = Ok r → ∀ j, j ∈ matches r →
     ∃ z, deref scenario_final j =
          <["match_score" := VInt z]> (deref scenario_store j)).
Proof.
  assert (ref_candidate ∉ [ref_job1; ref_job2]) as Hown.
  { apply (bool_decide_unpack _). vm_compute. exact I. }
  destruct (only_match_score_assigned ref_candidate [ref_job1; ref_job2]
              scenario_store (Ok scenario_response) scenario_final)
    as (Hcandidate & Hkeys & Hothers & Hresult).
  { vm_compute; reflexivity. }
  split; [vm_compute; reflexivity|].
  split; [exact Hown|].
  split; [exact (Hcandidate Hown)|].
  split; [exact Hkeys|]. split; [exact Hothers|exact Hresult].
Defined.

(** C10.  Skills are compared as they are written: a candidate skill that
    is a string and is not, character for character, an entry of the job's
    [required_skills] list is not found in it, and the score of the job is
    the score it would have without that skill.  ["Python"] is not
    ["python"], and ["python "] is not ["python"]. *)
Theorem skill_match_is_exact candidate job before after s required :
  candidate !! "skills" = Some (VList (before ++ VStr s :: after)) →
  job !! "required_skills" = Some (VList required) →
  VStr s ∉ required →
  py_in (VStr s) (VList required) = Ok false ∧
  score candidate job =
    score (<["skills" := VList (before ++ after)]> candidate) job.
Proof.
  intros Hskills Hreq Hnot.
  pose proof (py_in_list_str_absent _ _ Hnot) as Hin.
  split; [done|].
  unfold score, getitem. rewrite Hskills, lookup_insert_eq. simpl.
  rewrite !sum_in_app.
  destruct (sum_in job before 0) as [z|]; [|done].
  change (sum_in job (VStr s :: after) z = sum_in job after z).
  cbn [sum_in]. unfold getitem. rewrite Hreq. cbn [mbind result_bind].
  rewrite Hin. cbn [mbind result_bind Z.b2z]. by rewrite Z.add_0_r.
Qed.

Lemma skill_match_is_exact_witness :
  cased_candidate !! "skills" =
    Some (VList ([] ++ VStr "Python" :: [VStr "python "; VStr "sql"])) ∧
  scenario_job2 !! "required_skills" =
    Some (VList [VStr "sql"; VStr "python"]) ∧
  (VStr "Python" ∉ [VStr "sql"; VStr "python"]) ∧
  py_in (VStr "Python") (VList [VStr "sql"; VStr "python"]) = Ok false ∧
  score cased_candidate scenario_job2 =
    score (<["skills" := VList ([] ++ [VStr "python "; VStr "sql"])]>
             cased_candidate) scenario_job2.
Proof.
  assert (VStr "Python" ∉ [VStr "sql"; VStr "python"]) as Hnot.
  { intros Hin.
    repeat (inversion_clear Hin as [|? ? ? Hin']; rename Hin' into Hin). }
  split; [vm_compute; reflexivity|].
  split; [vm_compute; reflexivity|].
  split; [exact Hnot|].
  apply (skill_match_is_exact cased_candidate scenario_job2 []
           [VStr "python "; VStr "sql"] "Python" [VStr "sql"; VStr "python"]).
  - vm_compute; reflexivity.
  - vm_compute; reflexivity.
  - exact Hnot.
Defined.

(** ** When the call raises *)

Lemma py_iter_Raise v e : py_iter v = Raise e → e = TypeError.
Proof. destruct v; simpl; congruence. Qed.

Lemma score_Raise candidate job :
  (∃ e, score candidate job = Raise e) ↔
  skills_unusable candidate ∨
  ∃ skills items,
    candidate !! "skills" = Some skills ∧ py_iter skills = Ok items ∧
    ∃ e, sum_in job items 0 = Raise e.
Proof.
  unfold score, skills_unusable, getitem.
  destruct (candidate !! "skills") as [skills|]; simpl.
  2:{ split; [by left|eauto]. }
  destruct (py_iter skills) as [items|e] eqn:Hiter; simpl.
  - split.
    + intros He. right. by exists skills, items.
    + intros [?|(? & ? & [= <-] & Hi & He)]; [done|].
      rewrite Hiter in Hi. by injection Hi as <-.
  - apply py_iter_Raise in Hiter as ->. split; [by left|eauto].
Qed.

Lemma raises_iff_score c js σ :
  raises c js σ ↔ Exists (λ j, ∃ e, score_at σ c j = Raise e) js.
Proof.
  unfold raises. split.
  - intros (e & σ' & Hrun).
    destruct (match_jobs_spec _ _ _ _ _ Hrun) as (_ & _ & Herr).
    eapply Exists_impl; [exact (Herr e eq_refl)|]. simpl. eauto.
  - intros Hex. destruct (match_jobs c js σ) as [[r|e] σ'] eqn:Hrun; [|eauto].
    destruct (match_jobs_spec _ _ _ _ _ Hrun) as (_ & Hok & _).
    destruct (Hok _ eq_refl) as (_ & Hall & _).
    apply Exists_exists in Hex as (j & Hj & e & He).
    rewrite Forall_forall in Hall. destruct (Hall j Hj) as [z Hz]. congruence.
Qed.

(** C4, as the code has it.  The call raises exactly when the job list is
    not empty and either [candidate["skills"]] is absent or not iterable, or
    the candidate has at least one skill and some job has no
    [required_skills], or has a [required_skills] on which the membership
    test of one of the skills raises.  The skills are looked up once per
    job, and [required_skills] once per skill: nothing is looked up for an
    empty job list, and no [required_skills] for an empty skills list. *)
Theorem match_jobs_raises_iff c js σ :
  raises c js σ ↔
  js ≠ [] ∧
  (skills_unusable (deref σ c) ∨
   ∃ skills items,
     deref σ c !! "skills" = Some skills ∧ py_iter skills = Ok items ∧
     items ≠ [] ∧
     ∃ j, j ∈ js ∧
       (lacks_required_skills (deref σ j) ∨
        ∃ required,
          deref σ j !! "required_skills" = Some required ∧
          Exists (λ skill, ∃ e, py_in skill required = Raise e) items)).
Proof.
  rewrite raises_iff_score, Exists_exists. unfold score_at. split.
  - intros (j & Hj & [Hbad|(skills & items & Hs & Hi & He)]%score_Raise).
    { split; [by intros ->; apply elem_of_nil in Hj|by left]. }
    split; [by intros ->; apply elem_of_nil in Hj|].
    apply sum_in_Raise in He as [Hne Hreq].
    right. exists skills, items. split_and!; try done. by exists j.
  - intros [Hne [Hbad|(skills & items & Hs & Hi & Hitems & j & Hj & Hreq)]].
    + destruct js as [|j js]; [done|].
      exists j. split; [left|]. apply score_Raise. by left.
    + exists j. split; [done|]. apply score_Raise. right.
      exists skills, items. split_and!; try done.
      by apply sum_in_Raise.
Qed.

(** C4, as the specification has it, does not hold: with an empty skills
    list, a job without [required_skills] does not make the call raise. *)
Lemma malformed_input_not_raised :
  ¬ (raises ref_candidate [ref_job1] idle_store ↔
     malformed_input ref_candidate [ref_job1] idle_store).
Proof.
  intros [_ Hraise].
  destruct Hraise as (e & σ' & Hrun).
  - right. exists ref_job1. split; [apply list_elem_of_here|].
    vm_compute. reflexivity.
  - vm_compute in Hrun. discriminate Hrun.
Qed.

(** C8.  Scenario 1: for the skills [python, sql] and the jobs requiring
    [python, go] and [sql, python], the call returns the second job with
    [match_score] 2, then the first job with [match_score] 1. *)
Theorem scenario_1 :
  match_jobs ref_candidate [ref_job1; ref_job2] scenario_store =
    (Ok scenario_response, scenario_final) ∧
  matches scenario_response = [ref_job2; ref_job1] ∧
  render scenario_final scenario_response =
    [ {[ "required_skills" := VList [VStr "sql"; VStr "python"];
         "match_score" := VInt 2 ]};
      {[ "required_skills" := VList [VStr "python"; VStr "go"];
         "match_score" := VInt 1 ]} ].
Proof. vm_compute. done. Qed.

(** * Further properties of the handler *)

(** ** Which jobs are returned *)

(** The result holds exactly the jobs of the input list with a positive
    score, each as often as the input list holds it. *)
Theorem result_is_the_positive_jobs c js σ r σ' :
  match_jobs c js σ = (Ok r, σ') →
  matches r ≡ₚ filter (is_match σ c) js ∧
  ∀ j, j ∈ matches r ↔ j ∈ js ∧ ∃ z, score_at σ c j = Ok z ∧ 0 < z.
Proof.
  intros Hrun.
  destruct (match_jobs_spec _ _ _ _ _ Hrun) as (_ & Hok & _).
  destruct (Hok _ eq_refl) as (-> & _ & _).
  split; [apply ranking_perm|].
  intros j. rewrite elem_of_ranking. split.
  - intros [Hm Hj]. split; [done|]. by apply is_match_Ok.
  - intros [Hj (z & Hz & Hpos)]. split; [|done].
    unfold is_match. by rewrite (score_val_Ok _ _ _ _ Hz).
Qed.

Lemma result_is_the_positive_jobs_witness :
  match_jobs ref_candidate [ref_job1; ref_job3; ref_job2] miss_store =
    (Ok scenario_response, miss_final) ∧
  matches scenario_response ≡ₚ
    filter (is_match miss_store ref_candidate) [ref_job1; ref_job3; ref_job2] ∧
  ∀ j, j ∈ matches scenario_response ↔
       j ∈ [ref_job1; ref_job3; ref_job2] ∧
       ∃ z, score_at miss_store ref_candidate j = Ok z ∧ 0 < z.
Proof.
  split; [vm_compute; reflexivity|].
  apply (result_is_the_positive_jobs ref_candidate
           [ref_job1; ref_job3; ref_job2] miss_store
           scenario_response miss_final).
  vm_compute; reflexivity.
Defined.

(** A [match_score] is at most the number of skills of the candidate. *)
Theorem match_score_at_most_skill_count c js σ r σ' j :
  match_jobs c js σ = (Ok r, σ') →
  j ∈ matches r →
  ∃ skills items z,
    deref σ c !! "skills" = Some skills ∧ py_iter skills = Ok items ∧
    has_score σ' z j ∧ z ≤ Z.of_nat (length items).
Proof.
  intros Hrun Hj.
  destruct (result_has_score _ _ _ _ _ _ Hrun Hj) as (_ & _ & Hs & _ & Hz).
  unfold score_at, score, getitem in Hs.
  destruct (deref σ c !! "skills") as [skills|] eqn:Hskills; [|done].
  simpl in Hs.
  destruct (py_iter skills) as [items|] eqn:Hitems; [|done]. simpl in Hs.
  exists skills, items, (score_val σ c j).
  split_and!; [done|done|by apply Hz|].
  apply sum_in_Ok in Hs as [[-> ->]|(required & _ & _ & ->)]; [done|].
  pose proof (hits_bounds required items). lia.
Qed.

Lemma match_score_at_most_skill_count_witness :
  match_jobs ref_candidate [ref_job1; ref_job2] scenario_store =
    (Ok scenario_response, scenario_final) ∧
  ref_job2 ∈ matches scenario_response ∧
  ∃ skills items z,
    deref scenario_store ref_candidate !! "skills" = Some skills ∧
    py_iter skills = Ok items ∧
    has_score scenario_final z ref_job2 ∧ z ≤ Z.of_nat (length items).
Proof.
  split; [vm_compute; reflexivity|].
  split; [apply list_elem_of_here|].
  apply (match_score_at_most_skill_count ref_candidate [ref_job1; ref_job2]
           scenario_store scenario_response scenario_final ref_job2).
  - vm_compute; reflexivity.
  - apply list_elem_of_here.
Defined.

(** The first job of the result is a best match: no job of the input list
    has a larger score. *)
Theorem first_result_is_best c js σ r σ' best rest j z :
  match_jobs c js σ = (Ok r, σ') →
  matches r = best :: rest →
  j ∈ js →
  score_at σ c j = Ok z →
  ∃ top, has_score σ' top best ∧ z ≤ top.
Proof.
  intros Hrun Hbest Hj Hz.
  assert (best ∈ matches r) as Hin by (rewrite Hbest; left).
  destruct (result_has_score _ _ _ _ _ _ Hrun Hin) as (_ & Hpos & _ & _ & Htop).
  exists (score_val σ c best). split; [by apply Htop|].
  destruct (match_jobs_spec _ _ _ _ _ Hrun) as (_ & Hok & _).
  destruct (Hok _ eq_refl) as (Hr & _ & _).
  pose proof (ranking_sorted σ c js) as Hsorted.
  rewrite <- Hr, Hbest in Hsorted.
  apply StronglySorted_cons in Hsorted as [Hle _].
  rewrite Forall_forall in Hle.
  rewrite <- (score_val_Ok _ _ _ _ Hz).
  destruct (decide (is_match σ c j)) as [Hm|Hm].
  - assert (j ∈ best :: rest) as [->|Hrest]%elem_of_cons.
    { rewrite <- Hbest, Hr. by apply elem_of_ranking. }
    + done.
    + by apply Hle.
  - unfold is_match in Hm. lia.
Qed.

Lemma first_result_is_best_witness :
  match_jobs ref_candidate [ref_job1; ref_job2; ref_job3] ties_store =
    (Ok ties_response, ties_final) ∧
  matches ties_response = ref_job2 :: [ref_job1; ref_job3] ∧
  ref_job3 ∈ [ref_job1; ref_job2; ref_job3] ∧
  score_at ties_store ref_candidate ref_job3 = Ok 1 ∧
  ∃ top, has_score ties_final top ref_job2 ∧ 1 ≤ top.
Proof.
  split; [vm_compute; reflexivity|].
  split; [reflexivity|].
  split; [apply list_elem_of_further, list_elem_of_further, list_elem_of_here|].
  split; [vm_compute; reflexivity|].
  apply (first_result_is_best ref_candidate [ref_job1; ref_job2; ref_job3]
           ties_store ties_response ties_final ref_job2
           [ref_job1; ref_job3] ref_job3 1).
  - vm_compute; reflexivity.
  - reflexivity.
  - apply list_elem_of_further, list_elem_of_further, list_elem_of_here.
  - vm_compute; reflexivity.
Defined.

(** ** Exceptions *)

Lemma py_in_Raise x container e : py_in x container = Raise e → e = TypeError.
Proof. destruct container, x; simpl; congruence. Qed.

Lemma sum_in_Raise_cause job skills acc e :
  sum_in job skills acc = Raise e →
  skills ≠ [] ∧
  ((e = KeyError "required_skills" ∧ job !! "required_skills" = None) ∨
   (e = TypeError ∧
    ∃ required, job !! "required_skills" = Some required ∧
      Exists (λ skill, py_in skill required = Raise TypeError) skills)).
Proof.
  revert acc. induction skills as [|skill rest IH]; intros acc He; [done|].
  split; [done|]. simpl in He. unfold getitem in He.
  destruct (job !! "required_skills") as [required|] eqn:Hreq; simpl in He.
  2:{ left. by injection He as <-. }
  right. destruct (py_in skill required) as [b|e'] eqn:Hin; simpl in He.
  - destruct (IH _ He) as [_ [[_ ?]|(-> & required' & ? & Hex)]]; [done|].
    split; [done|]. exists required. split; [done|].
    apply Exists_cons_tl. by simplify_eq.
  - injection He as <-. pose proof (py_in_Raise _ _ _ Hin) as ->.
    split; [done|]. exists required. split; [done|]. by apply Exists_cons_hd.
Qed.

(** The store is left as it was by a run in which no job is kept. *)
Lemma match_jobs_no_match_store c js σ o σ' :
  match_jobs c js σ = (o, σ') →
  (∀ j, j ∈ js → ¬ is_match σ c j) →
  σ' = σ.
Proof.
  intros Hrun Hnone.
  destruct (match_jobs_spec _ _ _ _ _ Hrun) as (Hframe & _).
  apply map_eq. intros l.
  destruct (Hframe l) as [?|[Hl [Hm _]]]; [done|].
  by destruct (Hnone l Hl).
Qed.

(** The three exceptions of the handler and what causes each one.  A missing
    [skills] key is a [KeyError] and skills that cannot be iterated are a
    [TypeError]; both are raised at the first job, before any assignment.
    With skills to test, a job without [required_skills] is a [KeyError],
    and a membership test that the value of [required_skills] does not
    support is a [TypeError]. *)
Theorem raise_cause c js σ e σ' :
  match_jobs c js σ = (Raise e, σ') →
  (e = KeyError "skills" ∧ deref σ c !! "skills" = None ∧ σ' = σ) ∨
  (e = TypeError ∧ σ' = σ ∧
   ∃ skills,
     deref σ c !! "skills" = Some skills ∧ py_iter skills = Raise TypeError) ∨
  (∃ skills items j,
     deref σ c !! "skills" = Some skills ∧ py_iter skills = Ok items ∧
     items ≠ [] ∧ j ∈ js ∧
     ((e = KeyError "required_skills" ∧
       deref σ j !! "required_skills" = None) ∨
      (e = TypeError ∧
       ∃ required,
         deref σ j !! "required_skills" = Some required ∧
         Exists (λ skill, py_in skill required = Raise TypeError) items))).
Proof.
  intros Hrun.
  destruct (match_jobs_spec _ _ _ _ _ Hrun) as (_ & _ & Herr).
  destruct (proj1 (Exists_exists _ _) (Herr e eq_refl)) as (j & Hj & He).
  unfold score_at, score, getitem in He.
  destruct (deref σ c !! "skills") as [skills|] eqn:Hskills; simpl in He.
  2:{ left. injection He as <-. split_and!; [done|done|].
      apply (match_jobs_no_match_store _ _ _ _ _ Hrun). intros l _.
      unfold is_match, score_val, score_at, score, getitem.
      rewrite Hskills. simpl. lia. }
  destruct (py_iter skills) as [items|e'] eqn:Hiter; simpl in He.
  - right. right. exists skills, items, j.
    destruct (sum_in_Raise_cause _ _ _ _ He) as [Hne Hcause].
    by split_and!.
  - right. left. injection He as <-.
    pose proof (py_iter_Raise _ _ Hiter) as ->.
    split_and!; [done| |by exists skills].
    apply (match_jobs_no_match_store _ _ _ _ _ Hrun). intros l _.
    unfold is_match, score_val, score_at, score, getitem.
    rewrite Hskills. simpl. rewrite Hiter. simpl. lia.
Qed.

Lemma raise_cause_witness :
  match_jobs ref_candidate [ref_job1; ref_job3; ref_job2] broken_store =
    (Raise (KeyError "required_skills"), broken_after_job1) ∧
  ∃ skills items j,
    deref broken_store ref_candidate !! "skills" = Some skills ∧
    py_iter skills = Ok items ∧ items ≠ [] ∧
    j ∈ [ref_job1; ref_job3; ref_job2] ∧
    deref broken_store j !! "required_skills" = None.
Proof.
  split; [vm_compute; reflexivity|].
  destruct (raise_cause ref_candidate [ref_job1; ref_job3; ref_job2]
              broken_store (KeyError "required_skills") broken_after_job1)
    as [(_ & Hnone & _)|[(Hty & _)|(skills & items & j & Hs & Hi & Hne & Hj &
          [[_ Hreq]|[Hty _]])]].
  - vm_compute; reflexivity.
  - vm_compute in Hnone. discriminate Hnone.
  - discriminate Hty.
  - by exists skills, items, j.
  - discriminate Hty.
Defined.

(** ** No rollback *)

Lemma decorate_store xs σ : (decorate xs σ).2 = σ.
Proof.
  induction xs as [|x xs IH]; [done|].
  simpl. run_M. destruct (sort_key (deref σ x)); [|done].
  destruct (decorate xs σ) as [[ks|e] σ1]; simpl in *; by subst.
Qed.

Lemma sort_by_score_store xs σ : (sort_by_score xs σ).2 = σ.
Proof.
  unfold sort_by_score. run_M. pose proof (decorate_store xs σ) as Hd.
  destruct (decorate xs σ) as [[ks|e] σ1]; simpl in *; by subst.
Qed.

Lemma match_jobs_loop c js σ r σ' :
  match_jobs c js σ = (Ok r, σ') →
  ∃ matched, for_jobs c js [] σ = (Ok matched, σ').
Proof.
  unfold match_jobs. run_M.
  destruct (for_jobs c js [] σ) as [[matched|e] σ1]; [|done].
  pose proof (sort_by_score_store matched σ1) as Hsort.
  destruct (sort_by_score matched σ1) as [[sorted|e] σ2]; [|done].
  simpl in Hsort. subst σ2. intros [= _ <-]. eauto.
Qed.

Lemma for_jobs_app c js1 js2 : ∀ matched σ,
  for_jobs c (js1 ++ js2) matched σ =
  match for_jobs c js1 matched σ with
  | (Ok matched', σ1) => for_jobs c js2 matched' σ1
  | (Raise e, σ1) => (Raise e, σ1)
  end.
Proof.
  induction js1 as [|j js1 IH]; intros matched σ; [done|].
  rewrite <- app_comm_cons, !for_jobs_cons.
  destruct (score_at σ c j) as [s|]; [|done].
  destruct (0 <? s); apply IH.
Qed.

(** An exception does not undo what the loop has done: when the jobs before
    the first job whose score cannot be computed are matched without
    exception, the call raises the exception of that job and leaves the
    store as the call on those first jobs alone leaves it, with their
    [match_score] assigned. *)
Theorem raise_keeps_earlier_assignments c js1 j js2 σ r σ1 e :
  match_jobs c js1 σ = (Ok r, σ1) →
  score_at σ c j = Raise e →
  match_jobs c (js1 ++ j :: js2) σ = (Raise e, σ1).
Proof.
  intros Hrun He.
  destruct (match_jobs_loop _ _ _ _ _ Hrun) as [matched Hloop].
  rewrite <- (match_jobs_score_at _ _ _ _ _ c j Hrun) in He.
  unfold match_jobs. unfold mbind at 1, M_bind at 1.
  by rewrite for_jobs_app, Hloop, for_jobs_cons, He.
Qed.

Lemma raise_keeps_earlier_assignments_witness :
  match_jobs ref_candidate [ref_job1] broken_store =
    (Ok (Response [ref_job1]), broken_after_job1) ∧
  score_at broken_store ref_candidate ref_job3 =
    Raise (KeyError "required_skills") ∧
  has_score broken_after_job1 1 ref_job1 ∧
  match_jobs ref_candidate ([ref_job1] ++ ref_job3 :: [ref_job2]) broken_store =
    (Raise (KeyError "required_skills"), broken_after_job1).
Proof.
  split; [vm_compute; reflexivity|].
  split; [vm_compute; reflexivity|].
  split; [vm_compute; reflexivity|].
  apply (raise_keeps_earlier_assignments ref_candidate [ref_job1] ref_job3
           [ref_job2] broken_store (Response [ref_job1]) broken_after_job1
           (KeyError "required_skills")).
  - vm_compute; reflexivity.
  - vm_compute; reflexivity.
Defined.

(** ** What a score depends on *)

Lemma sum_in_perm job skills skills' :
  skills ≡ₚ skills' → ∀ acc, sum_in job skills acc = sum_in job skills' acc.
Proof.
  induction 1 as [|x l l' _ IH|x y l|l l' l'' _ IH1 _ IH2]; intros acc.
  - done.
  - simpl. destruct (getitem job "required_skills") as [required|]; [|done].
    simpl. destruct (py_in x required); simpl; [apply IH|done].
  - simpl. destruct (getitem job "required_skills") as [required|]; [|done].
    simpl.
    destruct (py_in y required) as [by_|ey] eqn:Hy,
             (py_in x required) as [bx|ex] eqn:Hx; simpl;
      try (apply py_in_Raise in Hy as ->);
      try (apply py_in_Raise in Hx as ->); try done.
    f_equal. lia.
  - by rewrite IH1, IH2.
Qed.

(** The loop does the same for two candidates that give every job the same
    score. *)
Lemma for_jobs_same_scores c1 c2 js : ∀ matched σ,
  (∀ j, score_at σ c1 j = score_at σ c2 j) →
  for_jobs c1 js matched σ = for_jobs c2 js matched σ.
Proof.
  induction js as [|j js IH]; intros matched σ Hsame; [done|].
  rewrite !for_jobs_cons, <- Hsame.
  destruct (score_at σ c1 j) as [s|]; [|done].
  destruct (0 <? s); [|by apply IH].
  apply IH. intros l. by rewrite !score_at_write.
Qed.

(** The order of the candidate's skills does not matter: two candidates
    whose skills lists hold the same entries, each as often, get the same
    result for the same jobs, with the same scores assigned, or the same
    exception. *)
Theorem skills_order_irrelevant c1 c2 js σ items1 items2 :
  deref σ c1 !! "skills" = Some (VList items1) →
  deref σ c2 !! "skills" = Some (VList items2) →
  items1 ≡ₚ items2 →
  match_jobs c1 js σ = match_jobs c2 js σ.
Proof.
  intros H1 H2 Hperm.
  unfold match_jobs. unfold mbind at 1 3, M_bind at 1 3.
  rewrite (for_jobs_same_scores c1 c2); [done|].
  intros j. unfold score_at, score, getitem. rewrite H1, H2. simpl.
  by apply sum_in_perm.
Qed.

Lemma skills_order_irrelevant_witness :
  deref two_candidates_store ref_candidate !! "skills" =
    Some (VList [VStr "python"; VStr "sql"]) ∧
  deref two_candidates_store ref_candidate2 !! "skills" =
    Some (VList [VStr "sql"; VStr "python"]) ∧
  [VStr "python"; VStr "sql"] ≡ₚ [VStr "sql"; VStr "python"] ∧
  match_jobs ref_candidate [ref_job1; ref_job2] two_candidates_store =
  match_jobs ref_candidate2 [ref_job1; ref_job2] two_candidates_store.
Proof.
  split; [vm_compute; reflexivity|].
  split; [vm_compute; reflexivity|].
  split; [apply Permutation_swap|].
  apply (skills_order_irrelevant ref_candidate ref_candidate2
           [ref_job1; ref_job2] two_candidates_store
           [VStr "python"; VStr "sql"] [VStr "sql"; VStr "python"]).
  - vm_compute; reflexivity.
  - vm_compute; reflexivity.
  - apply Permutation_swap.
Defined.

(** More skills never lower a score: with skills added to the candidate's
    list, the score of a job is at least what it was. *)
Theorem more_skills_never_lower_score candidate job items extra z z' :
  candidate !! "skills" = Some (VList items) →
  score candidate job = Ok z →
  score (<["skills" := VList (items ++ extra)]> candidate) job = Ok z' →
  z ≤ z'.
Proof.
  intros Hskills. unfold score, getitem.
  rewrite Hskills, lookup_insert_eq. simpl. rewrite sum_in_app.
  intros ->. simpl. intros Hextra.
  apply sum_in_Ok in Hextra as [[_ ->]|(required & _ & _ & ->)]; [done|].
  pose proof (hits_bounds required extra). lia.
Qed.

Lemma more_skills_never_lower_score_witness :
  scenario_candidate !! "skills" = Some (VList [VStr "python"; VStr "sql"]) ∧
  score scenario_candidate scenario_job1 = Ok 1 ∧
  score (<["skills" := VList ([VStr "python"; VStr "sql"] ++ [VStr "go"])]>
           scenario_candidate) scenario_job1 = Ok 2 ∧
  1 ≤ 2.
Proof.
  split; [vm_compute; reflexivity|].
  split; [vm_compute; reflexivity|].
  split; [vm_compute; reflexivity|].
  apply (more_skills_never_lower_score scenario_candidate scenario_job1
           [VStr "python"; VStr "sql"] [VStr "go"] 1 2).
  - vm_compute; reflexivity.
  - vm_compute; reflexivity.
  - vm_compute; reflexivity.
Defined.

(** The score reads [skills] in the candidate and [required_skills] in the
    job, and no other key: assigning or removing any other key of either
    dict leaves the score as it is. *)
Theorem other_keys_not_inspected candidate job k k' v v' :
  k ≠ "skills" →
  k' ≠ "required_skills" →
  score (<[k := v]> candidate) (<[k' := v']> job) = score candidate job ∧
  score (delete k candidate) (delete k' job) = score candidate job.
Proof.
  intros Hk Hk'. split.
  - by rewrite score_insert_candidate, score_insert_job.
  - assert (∀ items acc,
      sum_in (delete k' job) items acc = sum_in job items acc) as Hsum.
    { induction items as [|skill rest IH]; intros acc; [done|].
      simpl. unfold getitem. rewrite lookup_delete_ne by done.
      destruct (job !! "required_skills") as [required|]; simpl; [|done].
      destruct (py_in skill required); simpl; [apply IH|done]. }
    unfold score, getitem. rewrite lookup_delete_ne by done.
    destruct (candidate !! "skills") as [skills|]; simpl; [|done].
    destruct (py_iter skills); simpl; [apply Hsum|done].
Qed.

Lemma other_keys_not_inspected_witness :
  "title" ≠ "skills" ∧ "title" ≠ "required_skills" ∧
  score (<["title" := VStr "dev"]> scenario_candidate)
        (<["title" := VStr "backend"]> scenario_job1) =
    score scenario_candidate scenario_job1 ∧
  score (delete "title" scenario_candidate) (delete "title" scenario_job1) =
    score scenario_candidate scenario_job1.
Proof.
  assert ("title" ≠ "skills") as H1 by discriminate.
  assert ("title" ≠ "required_skills") as H2 by discriminate.
  split; [exact H1|]. split; [exact H2|].
  exact (other_keys_not_inspected scenario_candidate scenario_job1
           "title" "title" (VStr "dev") (VStr "backend") H1 H2).
Defined.

(** ** A [required_skills] that is a string *)

Lemma str_prefix_spec t s :
  str_prefix t s = true ↔ ∃ post, s = t +:+ post.
Proof.
  revert s. induction t as [|a t IH]; intros s; simpl.
  { split; [by exists s|done]. }
  destruct s as [|b s]; simpl.
  { split; [done|]. by intros [post [=]]. }
  rewrite andb_true_iff, Ascii.eqb_eq, IH. split.
  - intros [-> [post ->]]. by exists post.
  - intros [post [= -> ->]]. split; [done|]. by exists post.
Qed.

Lemma str_contains_spec s t :
  str_contains s t = true ↔ ∃ pre post, s = pre +:+ t +:+ post.
Proof.
  induction s as [|a s IH]; simpl.
  - rewrite orb_false_r, str_prefix_spec. split.
    + intros [post Hpost]. by exists "", post.
    + intros ([|? ?] & post & Hpost); [by exists post|done].
  - rewrite orb_true_iff, str_prefix_spec, IH. split.
    + intros [[post ->]|(pre & post & ->)].
      * by exists "", post.
      * by exists (String a pre), post.
    + intros ([|b pre] & post & Hpost).
      * left. by exists post.
      * right. injection Hpost as -> ->. by exists pre, post.
Qed.

(** When a job gives [required_skills] as one string instead of a list, a
    skill is found in it when it occurs anywhere in that string: the score
    is the number of the candidate's (string) skills that are substrings of
    it. *)
Theorem text_required_skills_match_substrings candidate job text skills :
  candidate !! "skills" = Some (VList (VStr <$> skills)) →
  job !! "required_skills" = Some (VStr text) →
  score candidate job =
    Ok (Z.of_nat (length (filter (λ s, str_contains text s = true) skills))) ∧
  ∀ s, str_contains text s = true ↔ ∃ pre post, text = pre +:+ s +:+ post.
Proof.
  intros Hskills Hreq. split; [|intros s; apply str_contains_spec].
  unfold score, getitem. rewrite Hskills. simpl. clear Hskills.
  assert (∀ acc, sum_in job (VStr <$> skills) acc =
    Ok (acc + Z.of_nat (length
      (filter (λ s, str_contains text s = true) skills)))) as Hsum.
  { induction skills as [|s skills IH]; intros acc; csimpl.
    - f_equal. lia.
    - unfold getitem. rewrite Hreq. simpl. rewrite IH, filter_cons.
      f_equal. destruct (str_contains text s); case_decide; try done;
        simpl; lia. }
  by rewrite Hsum.
Qed.

Lemma text_required_skills_match_substrings_witness :
  scenario_candidate !! "skills" = Some (VList (VStr <$> ["python"; "sql"])) ∧
  text_job !! "required_skills" = Some (VStr "python, sql") ∧
  score scenario_candidate text_job =
    Ok (Z.of_nat (length
      (filter (λ s, str_contains "python, sql" s = true) ["python"; "sql"]))) ∧
  ∀ s, str_contains "python, sql" s = true ↔
       ∃ pre post, "python, sql" = pre +:+ s +:+ post.
Proof.
  split; [vm_compute; reflexivity|].
  split; [vm_compute; reflexivity|].
  apply (text_required_skills_match_substrings scenario_candidate text_job
           "python, sql" ["python"; "sql"]).
  - vm_compute; reflexivity.
  - vm_compute; reflexivity.
Defined.
